(** * treeprint: a shallow embedding of [treeprint.go] and its specification

    Go's [any] payloads are modelled as a closed universe of printable
    values ([val]); [Node] is the Go struct, with the [Root] back-pointer
    kept as a flag ([Root != nil]) while the owner itself is recovered from a
    zipper context ([list Frame]): through the public API a [Root] pointer is
    either nil or names the node that holds it in its [Nodes] slice.
    Rendering writes into an output sink; it is modelled in a writer monad
    that may panic (Go runtime panics, e.g. an index out of range). *)

From Stdlib Require Import List String Ascii ZArith Bool Arith Lia.
Import ListNotations.
Set Warnings "-register-all".

(** ** Payloads ([any]) *)

Inductive val : Type :=
| VNil                       (* the nil interface *)
| VBool (b : bool)
| VInt (z : Z)
| VStr (s : string)
| VSlice (xs : list val).    (* a composite value, e.g. []any{...} *)

(** [reflect.DeepEqual] restricted to [val]. *)
Fixpoint DeepEqual (x y : val) {struct x} : bool :=
  match x, y with
  | VNil, VNil => true
  | VBool a, VBool b => Bool.eqb a b
  | VInt a, VInt b => Z.eqb a b
  | VStr a, VStr b => String.eqb a b
  | VSlice xs, VSlice ys =>
      (fix go (xs ys : list val) : bool :=
         match xs, ys with
         | [], [] => true
         | x :: xs', y :: ys' => DeepEqual x y && go xs' ys'
         | _, _ => false
         end) xs ys
  | _, _ => false
  end.

Local Open Scope string_scope.

Fixpoint digits_of_N (fuel : nat) (n : N) (acc : string) : string :=
  match fuel with
  | O => acc
  | S f =>
      let d := ascii_of_N (48 + N.modulo n 10) in
      let q := N.div n 10 in
      if (q =? 0)%N then String d acc else digits_of_N f q (String d acc)
  end.

(** [fmt.Sprint] of an integer: decimal, with a leading '-'. *)
Definition string_of_Z (z : Z) : string :=
  match z with
  | Z0 => "0"
  | Zpos p => digits_of_N (Pos.size_nat p) (Npos p) ""
  | Zneg p => "-" ++ digits_of_N (Pos.size_nat p) (Npos p) ""
  end.

(** The [%v] verb. *)
Fixpoint fmt_v (v : val) : string :=
  match v with
  | VNil => "<nil>"
  | VBool b => if b then "true" else "false"
  | VInt z => string_of_Z z
  | VStr s => s
  | VSlice xs => "[" ++ String.concat " " (map fmt_v xs) ++ "]"
  end.

Definition is_nil (v : val) : bool :=
  match v with VNil => true | _ => false end.

(** ** Nodes *)

(** [type Node struct { Root *Node; Meta any; Value any; Nodes []*Node }];
    [rooted] is [Root != nil]. *)
Inductive Node : Type :=
| mkNode (rooted : bool) (Meta : val) (Value : val) (Nodes : list Node).

Definition Rooted (n : Node) : bool := match n with mkNode r _ _ _ => r end.
Definition Meta (n : Node) : val := match n with mkNode _ m _ _ => m end.
Definition Value (n : Node) : val := match n with mkNode _ _ v _ => v end.
Definition Nodes (n : Node) : list Node := match n with mkNode _ _ _ ns => ns end.

(** One step of the path to the top of the heap: the owner of the focused
    node (its own [Root] flag, [Meta], [Value]) and the siblings before
    (nearest first) and after the focused node in the owner's [Nodes]. *)
Record Frame : Type := mkFrame {
  fr_rooted : bool;
  fr_meta : val;
  fr_value : val;
  fr_left : list Node;
  fr_right : list Node
}.

(** The node [n.Root] points to, when [n] sits in frame [fr]. *)
Definition parent_of (fr : Frame) (n : Node) : Node :=
  mkNode (fr_rooted fr) (fr_meta fr) (fr_value fr) (rev (fr_left fr) ++ n :: fr_right fr).

(** [FindLastNode]: the last element of [Nodes], or nil. *)
Definition FindLastNode (n : Node) : option Node :=
  match rev (Nodes n) with
  | [] => None
  | m :: _ => Some m
  end.

(** [isLast n = (n == n.Root.FindLastNode())]: nodes are distinct
    allocations, so the pointer test succeeds exactly when no sibling
    follows [n] in its owner's [Nodes]. *)
Definition isLast (fr : Frame) : bool :=
  match fr_right fr with [] => true | _ :: _ => false end.

(** [Branch]: [n.Root = nil; return n], on the focused node. *)
Definition Branch (loc : Node * list Frame) : Node * list Frame :=
  match loc with
  | (mkNode _ m v ns, c) => (mkNode false m v ns, c)
  end.

(** ** Search *)

(** The loop of [FindByMeta] over [n.Nodes]; [rec node] is the recursive
    call [node.FindByMeta(meta)]. *)
Fixpoint findByMeta_loop (rec : Node -> option Node) (meta : val) (nodes : list Node)
  : option Node :=
  match nodes with
  | [] => None
  | node :: rest =>
      if DeepEqual (Meta node) meta then Some node
      else match rec node with
           | Some v => Some v
           | None => findByMeta_loop rec meta rest
           end
  end.

Fixpoint FindByMeta (n : Node) (meta : val) {struct n} : option Node :=
  match n with
  | mkNode _ _ _ ns => findByMeta_loop (fun node => FindByMeta node meta) meta ns
  end.

(** [FindByValue]: the loop over [n.Nodes]; its recursive step is
    [node.FindByMeta(value)], as in the source. *)
Fixpoint findByValue_loop (value : val) (nodes : list Node) : option Node :=
  match nodes with
  | [] => None
  | node :: rest =>
      if DeepEqual (Value node) value then Some node
      else match FindByMeta node value with
           | Some v => Some v
           | None => findByValue_loop value rest
           end
  end.

Definition FindByValue (n : Node) (value : val) : option Node :=
  findByValue_loop value (Nodes n).

(** ** VisitAll *)

Section Visit.
Context {S : Type} (fn : S -> Node -> S).

(** The visitor is an observer threading its own state [S]; [rec s node]
    is the recursive call [node.VisitAll(fn)]. *)
Fixpoint visitAll_loop (rec : S -> Node -> S) (s : S) (nodes : list Node) : S :=
  match nodes with
  | [] => s
  | node :: rest =>
      let s1 := fn s node in
      let s2 := if (0 <? List.length (Nodes node))%nat then rec s1 node else s1 in
      visitAll_loop rec s2 rest
  end.

Fixpoint VisitAll (n : Node) (s : S) {struct n} : S :=
  match n with
  | mkNode _ _ _ ns => visitAll_loop (fun s' node => VisitAll node s') s ns
  end.
End Visit.

(** ** Rendering *)

(** The package-level [var]s read by the renderer: [IndentSize] (a
    non-negative count) and the three [EdgeType] glyphs. *)
Record Config : Type := mkConfig {
  IndentSize : nat;
  EdgeTypeLink : string;
  EdgeTypeMid : string;
  EdgeTypeEnd : string
}.

Definition default_config : Config := mkConfig 3 "│" "├─" "└─".

(** Writes to the sink, and a possible panic (result [None]). *)
Definition M (A : Type) : Type := (option A * string)%type.

Definition ret {A : Type} (a : A) : M A := (Some a, "").

Definition bind {A B : Type} (m : M A) (f : A -> M B) : M B :=
  match m with
  | (Some a, o1) => match f a with (r, o2) => (r, o1 ++ o2) end
  | (None, o1) => (None, o1)
  end.

Definition write (s : string) : M unit := (Some tt, s).

Definition lift {A : Type} (o : option A) : M A :=
  match o with Some a => ret a | None => (None, "") end.

Notation "x <- m ;; k" := (bind m (fun x => k))
  (at level 61, m at next level, right associativity).
Notation "m ;; k" := (bind m (fun _ => k))
  (at level 61, right associativity).

Definition nl_char : ascii := ascii_of_nat 10.
Definition nl : string := String nl_char EmptyString.

(** [strings.Repeat(s, k)]. *)
Fixpoint Repeat (s : string) (k : nat) : string :=
  match k with O => "" | S k' => s ++ Repeat s k' end.

(** [strings.Split(s, "\n")]. *)
Fixpoint split_nl (s : string) : list string :=
  match s with
  | EmptyString => [""]
  | String c s' =>
      if Ascii.eqb c nl_char then "" :: split_nl s'
      else match split_nl s' with
           | [] => [String c ""]
           | l :: ls => String c l :: ls
           end
  end.

(** [isEnded]. *)
Definition isEnded (levelsEnded : list nat) (level : nat) : bool :=
  existsb (Nat.eqb level) levelsEnded.

(** [links[i] = x], inside the bounds. *)
Fixpoint set_nth (i : nat) (x : string) (l : list string) : list string :=
  match l, i with
  | [], _ => []
  | _ :: l', O => x :: l'
  | y :: l', S i' => y :: set_nth i' x l'
  end.

(** The loop of [padding]: [for node.Root != nil { ... level--; node = node.Root }];
    an index outside [links] panics. *)
Fixpoint padding_loop (cfg : Config) (level : Z) (node : Node) (c : list Frame)
  (links : list string) : option (list string) :=
  if Rooted node then
    match c with
    | [] => Some links  (* unreachable: a set [Root] names the owner in [c] *)
    | fr :: c' =>
        if (0 <=? level)%Z && (level <? Z.of_nat (List.length links))%Z then
          let seg := if isLast fr then Repeat " " (IndentSize cfg + 1)
                     else EdgeTypeLink cfg ++ Repeat " " (IndentSize cfg) in
          padding_loop cfg (level - 1) (parent_of fr node) c'
            (set_nth (Z.to_nat level) seg links)
        else None
    end
  else Some links.

(** [padding(level, node)]: [links := make([]string, level+1)], then the loop,
    then [strings.Join(links, "")]. *)
Definition padding (cfg : Config) (level : nat) (node : Node) (c : list Frame)
  : option string :=
  match padding_loop cfg (Z.of_nat level) node c (repeat "" (S level)) with
  | Some links => Some (String.concat "" links)
  | None => None
  end.

(** [renderValue(level, node)]. *)
Definition renderValue (cfg : Config) (level : nat) (node : Node) (c : list Frame)
  : option val :=
  let lines := split_nl (fmt_v (Value node)) in
  if (List.length lines <? 2)%nat then Some (Value node)
  else match padding cfg level node c with
       | None => None
       | Some pad =>
           Some (VStr (String.concat nl
                  (match lines with
                   | [] => []
                   | l0 :: ls => l0 :: map (fun l => pad ++ l) ls
                   end)))
       end.

(** The [for i := 0; i < level; i++] loop of [printValues]. *)
Fixpoint printLevels (cfg : Config) (levelsEnded : list nat) (i k : nat) : M unit :=
  match k with
  | O => ret tt
  | S k' =>
      (if isEnded levelsEnded i then write (Repeat " " (IndentSize cfg + 1))
       else write (EdgeTypeLink cfg ++ Repeat " " (IndentSize cfg))) ;;
      printLevels cfg levelsEnded (S i) k'
  end.

(** [printValues(wr, level, levelsEnded, edge, node)]; [c] is the position
    of [node] in the heap. *)
Definition printValues (cfg : Config) (level : nat) (levelsEnded : list nat)
  (edge : string) (node : Node) (c : list Frame) : M unit :=
  printLevels cfg levelsEnded 0 level ;;
  v <- lift (renderValue cfg level node c) ;;
  if negb (is_nil (Meta node))
  then write (edge ++ " [" ++ fmt_v (Meta node) ++ "]  " ++ fmt_v v ++ nl)
  else write (edge ++ " " ++ fmt_v v ++ nl).

(** The loop of [printNodes(wr, level, levelsEnded, nodes)] over the [Nodes]
    of an owner [(pr, pm, pv)] at position [pctx]; [left] holds the nodes
    already visited (nearest first), and [rec level' E node c] is the call
    [printNodes(wr, level', E, node.Nodes)]. *)
Fixpoint printNodes_loop (cfg : Config)
  (rec : nat -> list nat -> Node -> list Frame -> M unit)
  (level : nat) (levelsEnded : list nat) (pr : bool) (pm pv : val)
  (pctx : list Frame) (left nodes : list Node) : M unit :=
  match nodes with
  | [] => ret tt
  | node :: rest =>
      (* i == len(nodes)-1 *)
      let last := match rest with [] => true | _ :: _ => false end in
      let levelsEnded' := if last then (levelsEnded ++ [level])%list else levelsEnded in
      let edge := if last then EdgeTypeEnd cfg else EdgeTypeMid cfg in
      let c := mkFrame pr pm pv left rest :: pctx in
      printValues cfg level levelsEnded' edge node c ;;
      (if (0 <? List.length (Nodes node))%nat then rec (S level) levelsEnded' node c
       else ret tt) ;;
      printNodes_loop cfg rec level levelsEnded' pr pm pv pctx (node :: left) rest
  end.

(** [printNodes(wr, level, levelsEnded, owner.Nodes)], [c] the position of
    [owner]. *)
Fixpoint printNodes (cfg : Config) (level : nat) (levelsEnded : list nat)
  (owner : Node) (c : list Frame) {struct owner} : M unit :=
  match owner with
  | mkNode r m v ns =>
      printNodes_loop cfg (fun l e k ck => printNodes cfg l e k ck) level levelsEnded
        r m v c [] ns
  end.

(** [n.Writer(w)] for the node [n] at position [c]. *)
Definition Writer (cfg : Config) (n : Node) (c : list Frame) : M unit :=
  let level := 0%nat in
  let '(levelsEnded, first) :=
    if Rooted n then
      if (List.length (Nodes n) =? 0)%nat
      then ([level], printValues cfg 0 [level] (EdgeTypeEnd cfg) n c)
      else ([], printValues cfg 0 [] (EdgeTypeMid cfg) n c)
    else ([],
          (if negb (is_nil (Meta n))
           then write ("[" ++ fmt_v (Meta n) ++ "]  " ++ fmt_v (Value n))
           else write (fmt_v (Value n))) ;;
          write nl) in
  first ;;
  if (0 <? List.length (Nodes n))%nat then printNodes cfg level levelsEnded n c
  else ret tt.

(** [n.Writer(w)] on a sink already holding the bytes [sink]: every write
    appends its bytes. *)
Definition WriteTo (cfg : Config) (n : Node) (c : list Frame) (sink : list Byte.byte)
  : option unit * list Byte.byte :=
  match Writer cfg n c with
  | (r, out) => (r, (sink ++ list_byte_of_string out)%list)
  end.

(** [n.Bytes()]: [Writer] into a fresh [bytes.Buffer]; a panic propagates. *)
Definition Bytes (cfg : Config) (n : Node) (c : list Frame) : option (list Byte.byte) :=
  match WriteTo cfg n c [] with
  | (Some _, buf) => Some buf
  | (None, _) => None
  end.

(** [n.String()]: [string(n.Bytes())]. *)
Definition String_ (cfg : Config) (n : Node) (c : list Frame) : option string :=
  match Bytes cfg n c with
  | Some b => Some (string_of_list_byte b)
  | None => None
  end.

(** ** Building and editing a tree *)

(** [New()] and [NewWithRoot(root)]: a parentless node without children. *)
Definition NewWithRoot (root : val) : Node * list Frame := (mkNode false VNil root [], []).
Definition New : Node * list Frame := NewWithRoot (VStr ".").

(** [n.AddNode(a)]: append a leaf whose [Root] is [n]; return [n]. *)
Definition AddNode (loc : Node * list Frame) (a : val) : Node * list Frame :=
  match loc with
  | (mkNode r m v ns, c) => (mkNode r m v (ns ++ [mkNode true VNil a []])%list, c)
  end.

(** [n.AddMetaNode(meta, a)]. *)
Definition AddMetaNode (loc : Node * list Frame) (meta a : val) : Node * list Frame :=
  match loc with
  | (mkNode r m v ns, c) => (mkNode r m v (ns ++ [mkNode true meta a []])%list, c)
  end.

(** [n.AddBranch(a)]: append a new node whose [Root] is [n] and return the
    new node, now the last element of [n.Nodes]. *)
Definition AddBranch (loc : Node * list Frame) (a : val) : Node * list Frame :=
  match loc with
  | (mkNode r m v ns, c) => (mkNode true VNil a [], mkFrame r m v (rev ns) [] :: c)
  end.

(** [n.AddMetaBranch(meta, a)]. *)
Definition AddMetaBranch (loc : Node * list Frame) (meta a : val) : Node * list Frame :=
  match loc with
  | (mkNode r m v ns, c) => (mkNode true meta a [], mkFrame r m v (rev ns) [] :: c)
  end.

(** ** Struct-tag helpers *)

(** [strings.Split(s, sep)] for a one-byte separator. *)
Fixpoint split_on (sep : ascii) (s : string) : list string :=
  match s with
  | EmptyString => [""]
  | String ch s' =>
      if Ascii.eqb ch sep then "" :: split_on sep s'
      else match split_on sep s' with
           | [] => [String ch ""]
           | l :: ls => String ch l :: ls
           end
  end.

(** [tagSpec(tag)]. *)
Definition tagSpec (tag : string) : string * bool :=
  match split_on ","%char tag with
  | p0 :: p1 :: _ => if String.eqb p1 "omitempty" then (p0, true) else (p0, false)
  | _ => (tag, false)
  end.

(** [filterTags(tag)]: drop every space-separated field that has the prefix
    ["tree:"]; [strings.HasPrefix(s, p)] is [String.prefix p s]. *)
Definition filterTags (tag : string) : string :=
  String.concat " "
    (filter (fun t => negb (String.prefix "tree:" t)) (split_on " "%char tag)).

(** ** Specification-side definitions (from the claims' wording) *)

(** Strict descendants of [n], in pre-order: each child, then its subtree. *)
Fixpoint descendants (n : Node) : list Node :=
  match n with
  | mkNode _ _ _ ns => flat_map (fun k => k :: descendants k) ns
  end.

Fixpoint node_size (n : Node) : nat :=
  match n with
  | mkNode _ _ _ ns => S (list_sum (map node_size ns))
  end.

(** The first pre-order descendant whose value deep-equals [value]. *)
Definition findByValue_spec (n : Node) (value : val) : option Node :=
  find (fun m => DeepEqual (Value m) value) (descendants n).

(** One padding segment: blank when the level has ended, a link otherwise. *)
Definition seg (cfg : Config) (ended : bool) : string :=
  if ended then Repeat " " (IndentSize cfg + 1)
  else EdgeTypeLink cfg ++ Repeat " " (IndentSize cfg).

(** The bracketed metadata prefix; empty exactly for unset metadata. *)
Definition meta_prefix (m : val) : string :=
  if is_nil m then "" else "[" ++ fmt_v m ++ "]  ".

(** What follows the depth segments on a node's line. *)
Definition line_body (cfg : Config) (level : nat) (edge : string) (node : Node)
  (c : list Frame) : M unit :=
  v <- lift (renderValue cfg level node c) ;;
  write (edge ++ " " ++ meta_prefix (Meta node) ++ fmt_v v ++ nl).

(** The child walk as the spec describes it: [flags] lists, per depth, whether
    the ancestor at that depth was the last of its siblings; each sibling
    gets its own copy, extended by its own last-ness for its descendants. *)
Fixpoint walk_spec_loop (cfg : Config) (rec : list bool -> Node -> list Frame -> M unit)
  (flags : list bool) (pr : bool) (pm pv : val) (pctx : list Frame)
  (left nodes : list Node) : M unit :=
  match nodes with
  | [] => ret tt
  | node :: rest =>
      let last := match rest with [] => true | _ :: _ => false end in
      let c := mkFrame pr pm pv left rest :: pctx in
      write (String.concat "" (map (seg cfg) flags)) ;;
      line_body cfg (List.length flags) (if last then EdgeTypeEnd cfg else EdgeTypeMid cfg)
        node c ;;
      rec (flags ++ [last])%list node c ;;
      walk_spec_loop cfg rec flags pr pm pv pctx (node :: left) rest
  end.

Fixpoint walk_spec (cfg : Config) (flags : list bool) (owner : Node) (c : list Frame)
  {struct owner} : M unit :=
  match owner with
  | mkNode r m v ns =>
      walk_spec_loop cfg (fun f k ck => walk_spec cfg f k ck) flags r m v c [] ns
  end.

(** The padding of a node's continuation lines, walking up from the node:
    one segment per node on the way, root-most first. *)
Fixpoint padding_spec (cfg : Config) (node : Node) (c : list Frame) : string :=
  match c with
  | [] => ""
  | fr :: c' =>
      if Rooted node then padding_spec cfg (parent_of fr node) c' ++ seg cfg (isLast fr)
      else ""
  end.

(** The number of iterations of [padding]'s loop from [node]: the length of
    the chain of set [Root] pointers above it. *)
Fixpoint up_len (node : Node) (c : list Frame) : nat :=
  if Rooted node then
    match c with
    | [] => 0
    | fr :: c' => S (up_len (parent_of fr node) c')
    end
  else 0.


(** ** Sample trees *)

Definition leaf (v : val) : Node := mkNode true VNil v [].

(** [New()] with a branch ["a"] holding a leaf ["x"]. *)
Definition tree_ax : Node :=
  mkNode false VNil (VStr ".") [mkNode true VNil (VStr "a") [leaf (VStr "x")]].

(** [New()] with one branch ["A"] holding a leaf ["B"]; [loc_A] is ["A"]. *)
Definition node_A : Node := mkNode true VNil (VStr "A") [leaf (VStr "B")].
Definition loc_A : list Frame := [mkFrame false VNil (VStr ".") [] []].

(** A three-level tree with a two-line leaf: [. / A / (B, C / "x\ny"), D]. *)
Definition node_xy : Node := leaf (VStr ("x" ++ nl ++ "y")).
Definition node_B : Node := leaf (VStr "B").
Definition loc_xy : list Frame :=
  [mkFrame true VNil (VStr "C") [] [];
   mkFrame true VNil (VStr "A") [node_B] [];
   mkFrame false VNil (VStr ".") [] [leaf (VStr "D")]].

(** Whether [s] contains the character [ch] ([strings.Contains]). *)
Fixpoint has_char (ch : ascii) (s : string) : bool :=
  match s with
  | EmptyString => false
  | String a s' => Ascii.eqb a ch || has_char ch s'
  end.

(** * Proofs *)

(** ** Writer monad and strings *)

Lemma append_nil_r (s : string) : s ++ "" = s.
Proof. induction s as [|a s IH]; simpl; [reflexivity | now rewrite IH]. Qed.

Lemma append_assoc' (a b d : string) : (a ++ b) ++ d = a ++ (b ++ d).
Proof. induction a as [|x a IH]; simpl; [reflexivity | now rewrite IH]. Qed.

Lemma bind_ret_l {A B : Type} (a : A) (f : A -> M B) : bind (ret a) f = f a.
Proof. unfold bind, ret. simpl. now destruct (f a). Qed.

Lemma bind_ret_r {A : Type} (m : M A) : bind m ret = m.
Proof. destruct m as [[a|] o]; simpl; [now rewrite append_nil_r | reflexivity]. Qed.

Lemma bind_assoc {A B D : Type} (m : M A) (f : A -> M B) (g : B -> M D) :
  bind (bind m f) g = bind m (fun a => bind (f a) g).
Proof.
  destruct m as [[a|] o]; simpl; [|reflexivity].
  destruct (f a) as [[b|] o2]; simpl; [|reflexivity].
  destruct (g b) as [r o3]. now rewrite append_assoc'.
Qed.

Lemma write_write (s1 s2 : string) : (write s1 ;; write s2) = write (s1 ++ s2).
Proof. reflexivity. Qed.

Lemma bind_write_assoc {A : Type} (s1 s2 : string) (k : M A) :
  (write s1 ;; (write s2 ;; k)) = (write (s1 ++ s2) ;; k).
Proof. unfold bind, write. destruct k. now rewrite append_assoc'. Qed.

Lemma concat_empty_cons (x : string) (l : list string) :
  String.concat "" (x :: l) = x ++ String.concat "" l.
Proof. destruct l; simpl; [now rewrite append_nil_r | reflexivity]. Qed.

Lemma concat_empty_app (l1 l2 : list string) :
  String.concat "" (l1 ++ l2)%list = String.concat "" l1 ++ String.concat "" l2.
Proof.
  induction l1 as [|x l1 IH]; [reflexivity|].
  rewrite <- app_comm_cons, !concat_empty_cons, IH. now rewrite append_assoc'.
Qed.

Lemma concat_empty_repeat (k : nat) : String.concat "" (repeat "" k) = "".
Proof. induction k as [|k IH]; [reflexivity|]. simpl repeat. now rewrite concat_empty_cons, IH. Qed.

(** Induction over nodes through the nested [list]. *)
Lemma Node_nested_ind (P : Node -> Prop) :
  (forall r m v ns, Forall P ns -> P (mkNode r m v ns)) -> forall n, P n.
Proof.
  intros H. fix IH 1. intros [r m v ns]. apply H.
  revert ns. fix IHl 1. intros [|k ks]; constructor; [apply IH | apply IHl].
Qed.

(** ** Search and traversal *)

Lemma in_list_size (k : Node) (ns : list Node) :
  In k ns -> node_size k <= list_sum (map node_size ns).
Proof.
  induction ns as [|x xs IH]; simpl; [tauto|].
  intros [->|H]; [lia | specialize (IH H); lia].
Qed.

Lemma descendants_smaller (n m : Node) :
  In m (descendants n) -> node_size m < node_size n.
Proof.
  revert m. induction n as [r mm v ns Hns] using Node_nested_ind. intros m Hin.
  simpl in Hin |- *. apply in_flat_map in Hin as [k [Hk Hm]].
  pose proof (in_list_size k ns Hk) as Hle.
  destruct Hm as [->|Hm]; [lia|].
  rewrite Forall_forall in Hns. specialize (Hns k Hk m Hm). lia.
Qed.

Lemma descendants_not_self (n : Node) : ~ In n (descendants n).
Proof. intros H. apply descendants_smaller in H. lia. Qed.

Lemma FindByMeta_descendant (n : Node) (t : val) (x : Node) :
  FindByMeta n t = Some x -> In x (descendants n).
Proof.
  revert x. induction n as [r mm v ns Hns] using Node_nested_ind. intros x.
  simpl. induction ns as [|k ks IHks]; simpl; [discriminate|].
  inversion Hns as [|? ? Hk Hks]; subst.
  destruct (DeepEqual (Meta k) t).
  - intros [= <-]. now left.
  - destruct (FindByMeta k t) as [y|] eqn:E.
    + intros [= <-]. right. apply in_app_iff. left. now apply Hk.
    + intros H. right. apply in_app_iff. right. now apply IHks.
Qed.

Lemma FindByValue_descendant (n : Node) (t : val) (x : Node) :
  FindByValue n t = Some x -> In x (descendants n).
Proof.
  destruct n as [r mm v ns]. unfold FindByValue. simpl.
  induction ns as [|k ks IHks]; simpl; [discriminate|].
  destruct (DeepEqual (Value k) t).
  - intros [= <-]. now left.
  - destruct (FindByMeta k t) as [y|] eqn:E.
    + intros [= <-]. right. apply in_app_iff. left.
      now apply (FindByMeta_descendant k t).
    + intros H. right. apply in_app_iff. right. now apply IHks.
Qed.

(** C1 (failing input): under [New()], a branch ["a"] holds a leaf ["x"];
    [FindByValue("x")] returns nil, while the first pre-order descendant
    whose value is ["x"] is that leaf: the search below the children goes
    through [FindByMeta]. *)
Lemma FindByValue_misses_grandchild :
  FindByValue tree_ax (VStr "x") = None /\
  findByValue_spec tree_ax (VStr "x") = Some (leaf (VStr "x")).
Proof. split; reflexivity. Qed.

(** C10: [FindByMeta] and [FindByValue] only return strict descendants of the
    receiver (so never the receiver itself), and return nil on a leaf. *)
Theorem Find_strict_descendants (n : Node) (t : val) :
  (forall x, FindByMeta n t = Some x -> In x (descendants n) /\ x <> n) /\
  (forall x, FindByValue n t = Some x -> In x (descendants n) /\ x <> n) /\
  (Nodes n = [] -> FindByMeta n t = None /\ FindByValue n t = None).
Proof.
  split; [|split].
  - intros x H. apply (FindByMeta_descendant n t) in H.
    split; [exact H|]. intros ->. exact (descendants_not_self n H).
  - intros x H. apply FindByValue_descendant in H.
    split; [exact H|]. intros ->. exact (descendants_not_self n H).
  - destruct n as [r m v ns]. simpl. intros ->. split; reflexivity.
Qed.

Lemma VisitAll_fold {S : Type} (fn : S -> Node -> S) (n : Node) (s : S) :
  VisitAll fn n s = fold_left fn (descendants n) s.
Proof.
  revert s. induction n as [r m v ns Hns] using Node_nested_ind. intros s.
  simpl. revert s. induction ns as [|k ks IHks]; intros s; simpl; [reflexivity|].
  inversion Hns as [|? ? Hk Hks]; subst.
  rewrite fold_left_app. simpl. rewrite <- (IHks Hks).
  f_equal. destruct k as [rk mk vk nk]. simpl.
  destruct nk as [|k' nk']; simpl; [reflexivity|].
  apply Hk.
Qed.

(** C7: [VisitAll] applies the visitor to each child, then to that child's
    whole subtree, then to the next child (pre-order of the strict
    descendants), and never to the receiver. *)
Theorem VisitAll_preorder {S : Type} (fn : S -> Node -> S) (n : Node) (s : S) :
  VisitAll fn n s = fold_left fn (descendants n) s /\ ~ In n (descendants n).
Proof. split; [apply VisitAll_fold | apply descendants_not_self]. Qed.

(** C8: [Branch] clears the [Root] of the focused node and returns that node
    in place; children, value and metadata are unchanged; it is idempotent and
    a no-op on a parentless node. *)
Theorem Branch_detaches (n : Node) (c : list Frame) :
  snd (Branch (n, c)) = c /\
  Rooted (fst (Branch (n, c))) = false /\
  Nodes (fst (Branch (n, c))) = Nodes n /\
  Value (fst (Branch (n, c))) = Value n /\
  Meta (fst (Branch (n, c))) = Meta n /\
  Branch (Branch (n, c)) = Branch (n, c) /\
  (Rooted n = false -> Branch (n, c) = (n, c)).
Proof.
  destruct n as [r m v ns]. simpl.
  repeat split; [].
  intros ->. reflexivity.
Qed.

(** ** Rendering *)

Lemma printLevels_write (cfg : Config) (E : list nat) (i k : nat) :
  printLevels cfg E i k =
  write (String.concat "" (map (fun j => seg cfg (isEnded E j)) (seq i k))).
Proof.
  revert i. induction k as [|k IH]; intros i; [reflexivity|].
  simpl printLevels. rewrite IH. simpl seq. simpl map. rewrite concat_empty_cons.
  unfold seg. destruct (isEnded E i); reflexivity.
Qed.

Lemma printValues_body (cfg : Config) (level : nat) (E : list nat) (edge : string)
  (node : Node) (c : list Frame) :
  printValues cfg level E edge node c =
  (write (String.concat "" (map (fun i => seg cfg (isEnded E i)) (seq 0 level))) ;;
   line_body cfg level edge node c).
Proof.
  unfold printValues, line_body. rewrite printLevels_write.
  destruct (renderValue cfg level node c) as [v|]; [|reflexivity].
  unfold meta_prefix. destruct (is_nil (Meta node)); simpl; [reflexivity|].
  now rewrite !append_assoc'.
Qed.

Lemma map_nth_seq_from (f : nat -> bool) (flags : list bool) (i0 : nat) :
  (forall j, j < List.length flags -> f (i0 + j) = nth j flags false) ->
  map f (seq i0 (List.length flags)) = flags.
Proof.
  revert i0. induction flags as [|b fl IH]; intros i0 H; [reflexivity|].
  simpl. f_equal.
  - specialize (H 0). rewrite Nat.add_0_r in H. apply H. simpl. lia.
  - apply IH. intros j Hj. specialize (H (S j)).
    rewrite Nat.add_succ_r in H. apply H. simpl. lia.
Qed.

Lemma isEnded_app (E : list nat) (L i : nat) :
  isEnded (E ++ [L])%list i = isEnded E i || Nat.eqb i L.
Proof. unfold isEnded. rewrite existsb_app. simpl. now rewrite orb_false_r. Qed.

Section Invariant.
Variables (L : nat) (E : list nat) (flags : list bool).
Hypothesis Hlen : List.length flags = L.
Hypothesis Hend : forall i, isEnded E i = nth i flags false.

Lemma ended_step (last : bool) (i : nat) :
  isEnded (if last then (E ++ [L])%list else E) i = nth i (flags ++ [last])%list false.
Proof.
  destruct (lt_dec i L) as [Hi|Hi].
  - rewrite app_nth1 by lia. rewrite <- Hend.
    destruct last; [rewrite isEnded_app; replace (Nat.eqb i L) with false by (symmetry; apply Nat.eqb_neq; lia); apply orb_false_r | reflexivity].
  - rewrite app_nth2 by lia. rewrite Hlen.
    assert (Hover : isEnded E i = false) by (rewrite Hend; apply nth_overflow; lia).
    destruct (Nat.eq_dec i L) as [->|Hne].
    + rewrite Nat.sub_diag. simpl. destruct last; [rewrite isEnded_app, Nat.eqb_refl; apply orb_true_r | exact Hover].
    + replace (nth (i - L) [last] false) with false
        by (destruct (i - L) as [|[|d]] eqn:Hd; [lia|reflexivity|reflexivity]).
      destruct last; [rewrite isEnded_app, Hover; simpl; apply Nat.eqb_neq; exact Hne | exact Hover].
Qed.

Lemma prefix_step (cfg : Config) (last : bool) :
  map (fun i => seg cfg (isEnded (if last then (E ++ [L])%list else E) i)) (seq 0 L) =
  map (seg cfg) flags.
Proof.
  rewrite <- (map_map (fun i => isEnded (if last then (E ++ [L])%list else E) i) (seg cfg)).
  f_equal. replace (seq 0 L) with (seq 0 (List.length flags)) by now rewrite Hlen.
  apply map_nth_seq_from. intros j Hj. cbv beta.
  rewrite Nat.add_0_l, ended_step. now rewrite app_nth1 by exact Hj.
Qed.
End Invariant.

Lemma walk_spec_leaf (cfg : Config) (flags : list bool) (r : bool) (m v : val)
  (c : list Frame) : walk_spec cfg flags (mkNode r m v []) c = ret tt.
Proof. reflexivity. Qed.

(** The child walk of the source is the spec's walk, for every level and
    ended-levels set matching the ancestors' last-sibling flags. *)
Lemma printNodes_walk (cfg : Config) (owner : Node) :
  forall (c : list Frame) (L : nat) (E : list nat) (flags : list bool),
  List.length flags = L -> (forall i, isEnded E i = nth i flags false) ->
  printNodes cfg L E owner c = walk_spec cfg flags owner c.
Proof.
  induction owner as [r m v ns Hns] using Node_nested_ind.
  intros c L E flags Hlen Hend. subst L. simpl.
  generalize (@nil Node) as left.
  induction ns as [|k ks IHks]; intros left; [reflexivity|].
  pose proof (Forall_inv Hns) as Hk. pose proof (Forall_inv_tail Hns) as Hks.
  simpl printNodes_loop. simpl walk_spec_loop.
  set (last := match ks with [] => true | _ :: _ => false end).
  rewrite printValues_body, bind_assoc.
  rewrite (prefix_step (List.length flags) E flags eq_refl Hend cfg last).
  assert (Hchild :
    (if (0 <? List.length (Nodes k))%nat
     then printNodes cfg (S (List.length flags))
            (if last then (E ++ [List.length flags])%list else E) k
            (mkFrame r m v left ks :: c)
     else ret tt) =
    walk_spec cfg (flags ++ [last])%list k (mkFrame r m v left ks :: c)).
  { destruct k as [rk mk vk nk]. destruct nk as [|k' nk'].
    - reflexivity.
    - simpl (0 <? _)%nat. cbv iota. apply Hk.
      + rewrite length_app. simpl. lia.
      + intros i. apply (ended_step (List.length flags) E flags eq_refl Hend). }
  rewrite Hchild.
  assert (Htail :
    printNodes_loop cfg (fun l e k0 ck => printNodes cfg l e k0 ck) (List.length flags)
      (if last then (E ++ [List.length flags])%list else E) r m v c (k :: left) ks =
    walk_spec_loop cfg (fun f k0 ck => walk_spec cfg f k0 ck) flags r m v c (k :: left) ks).
  { subst last. destruct ks as [|k2 ks2]; [reflexivity|].
    apply IHks; assumption. }
  rewrite Htail. reflexivity.
Qed.

Lemma bind_ret_unit (m : M unit) : (m ;; ret tt) = m.
Proof. destruct m as [[[]|] o]; simpl; [now rewrite append_nil_r | reflexivity]. Qed.

Lemma bind_write_empty {A : Type} (k : M A) : (write "" ;; k) = k.
Proof. unfold bind, write. now destruct k. Qed.

Lemma isEnded_nil (i : nat) : isEnded [] i = nth i [] false.
Proof. destruct i; reflexivity. Qed.

(** C3: a node's line at level [L] starts with one segment per depth
    [0..L-1], blank when that depth is in the ended-levels set and a link
    plus [IndentSize] spaces otherwise; and every render's child walk is the
    spec's walk, where each sibling passes its own copy of the ancestors'
    last-sibling flags (extended by its own) to its descendants only. *)
Theorem render_prefix_segments (cfg : Config) :
  (forall level E edge node c,
     printValues cfg level E edge node c =
     (write (String.concat "" (map (fun i => seg cfg (isEnded E i)) (seq 0 level))) ;;
      line_body cfg level edge node c)) /\
  (forall owner c, printNodes cfg 0 [] owner c = walk_spec cfg [] owner c).
Proof.
  split.
  - apply printValues_body.
  - intros owner c. apply printNodes_walk; [reflexivity | apply isEnded_nil].
Qed.

Lemma Writer_lines (cfg : Config) (n : Node) (c : list Frame) :
  Writer cfg n c =
  ((if Rooted n
    then line_body cfg 0
           (if (List.length (Nodes n) =? 0)%nat then EdgeTypeEnd cfg else EdgeTypeMid cfg) n c
    else write (meta_prefix (Meta n) ++ fmt_v (Value n) ++ nl)) ;;
   walk_spec cfg [] n c).
Proof.
  destruct n as [r m v ns].
  assert (Hwalk : forall E, (forall i, isEnded E i = nth i [] false) ->
            (if (0 <? List.length ns)%nat then printNodes cfg 0 E (mkNode r m v ns) c
             else ret tt) =
            walk_spec cfg [] (mkNode r m v ns) c).
  { intros E HE. destruct ns as [|k ks]; [reflexivity|].
    simpl (0 <? _)%nat. cbv iota. apply printNodes_walk; [reflexivity | exact HE]. }
  unfold Writer. cbn [Rooted Nodes Meta Value].
  destruct r.
  - destruct (List.length ns =? 0)%nat eqn:Hl.
    + rewrite printValues_body, bind_write_empty.
      destruct ns as [|k ks]; [|discriminate]. simpl.
      now rewrite bind_ret_unit.
    + rewrite printValues_body, bind_write_empty.
      rewrite (Hwalk [] isEnded_nil). reflexivity.
  - rewrite (Hwalk [] isEnded_nil), bind_assoc. unfold meta_prefix.
    destruct (is_nil m); simpl negb; cbv iota.
    + now rewrite bind_write_assoc.
    + rewrite bind_write_assoc. now rewrite !append_assoc'.
Qed.

(** C2 (amended): the whole render is the start node's own line followed by
    the spec's walk, in which each descendant's line carries exactly one
    connector, [EdgeTypeEnd] iff it is the last of its owner's [Nodes]. The
    start node's own line has no connector when its [Root] is nil; when it has
    a parent, its connector is [EdgeTypeEnd] iff it has no children. *)
Theorem Writer_connectors (cfg : Config) (n : Node) (c : list Frame) :
  Writer cfg n c =
  ((if Rooted n
    then line_body cfg 0
           (if (List.length (Nodes n) =? 0)%nat then EdgeTypeEnd cfg else EdgeTypeMid cfg) n c
    else write (meta_prefix (Meta n) ++ fmt_v (Value n) ++ nl)) ;;
   walk_spec cfg [] n c).
Proof. exact (Writer_lines cfg n c). Qed.

(** C2 (counterexample): rendering the branch ["A"] of [New()], the last
    (and only) element of its owner's [Nodes], starts its line with the mid
    connector, because it has children. *)
Lemma sub_node_last_gets_mid :
  isLast (mkFrame false VNil (VStr ".") [] []) = true /\
  String_ default_config node_A loc_A = Some ("├─ A" ++ nl ++ "└─ B" ++ nl).
Proof. split; reflexivity. Qed.

Lemma set_nth_repeat (k : nat) (x : string) (suf : list string) :
  set_nth k x (repeat "" (S k) ++ suf)%list = (repeat "" k ++ x :: suf)%list.
Proof. induction k as [|k IH]; [reflexivity|]. simpl. f_equal. exact IH. Qed.

Lemma padding_loop_spec (cfg : Config) (c : list Frame) :
  forall (node : Node) (k : nat) (suf links : list string),
  padding_loop cfg (Z.of_nat k - 1) node c (repeat "" k ++ suf)%list = Some links ->
  String.concat "" links = padding_spec cfg node c ++ String.concat "" suf.
Proof.
  induction c as [|fr c IH]; intros node k suf links H.
  - simpl in H. destruct (Rooted node); injection H as <-;
      rewrite concat_empty_app, concat_empty_repeat; reflexivity.
  - simpl in H |- *. destruct (Rooted node).
    2:{ injection H as <-. rewrite concat_empty_app, concat_empty_repeat. reflexivity. }
    destruct k as [|k].
    + simpl in H. discriminate H.
    + rewrite length_app, repeat_length in H.
      replace ((0 <=? Z.of_nat (S k) - 1)%Z && (Z.of_nat (S k) - 1 <? Z.of_nat (S k + List.length suf))%Z)
        with true in H by (symmetry; apply andb_true_iff; split; [apply Z.leb_le | apply Z.ltb_lt]; lia).
      replace (Z.to_nat (Z.of_nat (S k) - 1)) with k in H by lia.
      rewrite set_nth_repeat in H.
      replace (Z.of_nat (S k) - 1 - 1)%Z with (Z.of_nat k - 1)%Z in H by lia.
      apply IH in H. rewrite H, concat_empty_cons. now rewrite append_assoc'.
Qed.

Lemma padding_spec_eq (cfg : Config) (level : nat) (node : Node) (c : list Frame) (p : string) :
  padding cfg level node c = Some p -> p = padding_spec cfg node c.
Proof.
  unfold padding. destruct (padding_loop _ _ _ _ _) as [links|] eqn:H; [|discriminate].
  intros [= <-].
  replace (Z.of_nat level) with (Z.of_nat (S level) - 1)%Z in H by lia.
  rewrite <- (app_nil_r (repeat "" (S level))) in H.
  apply padding_loop_spec in H. rewrite H. apply append_nil_r.
Qed.

(** C4: the rendered value of a node whose text has several lines keeps its
    first line and prefixes every other line with the padding obtained by
    walking up from the node: one segment per node on the way (blank when it
    was the last of its owner's [Nodes], a link otherwise), root-most first. *)
Theorem continuation_padding (cfg : Config) (level : nat) (node : Node) (c : list Frame)
  (l0 : string) (ls : list string) (v : val) :
  split_nl (fmt_v (Value node)) = l0 :: ls -> ls <> [] ->
  renderValue cfg level node c = Some v ->
  v = VStr (String.concat nl (l0 :: map (fun l => padding_spec cfg node c ++ l) ls)).
Proof.
  intros Hsplit Hne. unfold renderValue. rewrite Hsplit.
  destruct ls as [|l1 ls]; [contradiction|]. simpl (List.length _ <? 2)%nat. cbv iota.
  destruct (padding cfg level node c) as [p|] eqn:Hp; [|discriminate].
  intros [= <-]. apply padding_spec_eq in Hp. now subst p.
Qed.

Lemma continuation_padding_witness :
  split_nl (fmt_v (Value node_xy)) = ["x"; "y"] /\
  renderValue default_config 2 node_xy loc_xy = Some (VStr ("x" ++ nl ++ "│           y")) /\
  VStr ("x" ++ nl ++ "│           y") =
  VStr (String.concat nl ("x" :: map (fun l => padding_spec default_config node_xy loc_xy ++ l) ["y"])).
Proof.
  split; [reflexivity|]. split; [reflexivity|].
  apply (continuation_padding default_config 2 node_xy loc_xy "x" ["y"]);
    [reflexivity | discriminate | reflexivity].
Defined.

(** C5: a render appends to its sink bytes determined by the tree alone, so a
    second render of the same tree appends the same bytes again (the tree is an
    input of [Writer], which assigns no field of any node). *)
Theorem render_idempotent (cfg : Config) (n : Node) (c : list Frame) (sink : list Byte.byte) :
  exists r out,
    WriteTo cfg n c sink = (r, sink ++ out)%list /\
    WriteTo cfg n c (sink ++ out)%list = (r, sink ++ out ++ out)%list.
Proof.
  unfold WriteTo. destruct (Writer cfg n c) as [r o].
  exists r, (list_byte_of_string o). split; [reflexivity|]. now rewrite app_assoc.
Qed.

(** C9: [String()] is the decoding of [Bytes()], that decoding loses no byte,
    and [Bytes()] is exactly what [Writer] appends to any sink (a panic of one
    is a panic of the other). *)
Theorem render_variants_agree (cfg : Config) (n : Node) (c : list Frame) :
  String_ cfg n c = option_map string_of_list_byte (Bytes cfg n c) /\
  (forall b, Bytes cfg n c = Some b ->
     list_byte_of_string (string_of_list_byte b) = b /\
     forall sink, WriteTo cfg n c sink = (Some tt, sink ++ b)%list) /\
  (Bytes cfg n c = None -> forall sink, fst (WriteTo cfg n c sink) = None).
Proof.
  unfold String_, Bytes, WriteTo. destruct (Writer cfg n c) as [[[]|] o]; simpl.
  - split; [reflexivity|]. split; [|discriminate]. intros b [= <-].
    split; [apply list_byte_of_string_of_list_byte | reflexivity].
  - split; [reflexivity|]. split; [discriminate | reflexivity].
Qed.

Lemma meta_prefix_nil (m : val) : meta_prefix m = "" <-> m = VNil.
Proof. destruct m; simpl; split; (discriminate || reflexivity). Qed.

(** C6: a node with metadata [1] and value ["x"] gets, after its depth
    segments, [edge ++ " [1]  x"]; a parentless start node prints
    ["[1]  x"]; in general the bracket prefix is written exactly when the
    metadata is not nil, so [0] and [false] keep it: on every [printValues]
    line, and on the own line of any parentless start node, which is
    [meta_prefix] of its metadata followed by its value. *)
Theorem meta_bracket (cfg : Config) :
  (forall level E edge r ns c,
     printValues cfg level E edge (mkNode r (VInt 1) (VStr "x") ns) c =
     (Some tt, String.concat "" (map (fun i => seg cfg (isEnded E i)) (seq 0 level))
               ++ edge ++ " [1]  x" ++ nl)) /\
  (forall c, Writer cfg (mkNode false (VInt 1) (VStr "x") []) c = (Some tt, "[1]  x" ++ nl)) /\
  (forall level E edge node c,
     printValues cfg level E edge node c =
     (write (String.concat "" (map (fun i => seg cfg (isEnded E i)) (seq 0 level))) ;;
      v <- lift (renderValue cfg level node c) ;;
      write (edge ++ " " ++ meta_prefix (Meta node) ++ fmt_v v ++ nl))) /\
  (forall m v ns c,
     Writer cfg (mkNode false m v ns) c =
     (write (meta_prefix m ++ fmt_v v ++ nl) ;; walk_spec cfg [] (mkNode false m v ns) c)) /\
  (forall m, meta_prefix m = "" <-> m = VNil) /\
  meta_prefix (VInt 0) = "[0]  " /\ meta_prefix (VBool false) = "[false]  ".
Proof.
  split; [|split; [|split; [|split; [|split; [apply meta_prefix_nil | split; reflexivity]]]]].
  - intros level E edge r ns c. rewrite printValues_body. unfold line_body. simpl.
    reflexivity.
  - intros c. reflexivity.
  - apply printValues_body.
  - intros m v ns c. apply Writer_lines.
Qed.

(** ** Building a tree and searching it *)


(** [FindLastNode] is nil exactly on a node without children, and otherwise
    returns the element at the highest index. *)
Theorem FindLastNode_last (n : Node) :
  (FindLastNode n = None <-> Nodes n = []) /\
  (forall ns k, Nodes n = (ns ++ [k])%list -> FindLastNode n = Some k).
Proof.
  unfold FindLastNode. split.
  - destruct (Nodes n) as [|k ks] eqn:E; simpl; [tauto|].
    destruct (rev ks ++ [k])%list eqn:E2; [|split; discriminate].
    apply app_eq_nil in E2 as [_ H]. discriminate.
  - intros ns k ->. rewrite rev_app_distr. reflexivity.
Qed.

(** [AddNode] is [AddMetaNode] with nil metadata; [AddMetaNode] appends one
    leaf with that metadata and value and a set [Root], keeps the receiver's
    other fields and position, and the new leaf is then [FindLastNode]. *)
Theorem AddMetaNode_appends (loc : Node * list Frame) (meta a : val) :
  AddNode loc a = AddMetaNode loc VNil a /\
  snd (AddMetaNode loc meta a) = snd loc /\
  Nodes (fst (AddMetaNode loc meta a)) = (Nodes (fst loc) ++ [mkNode true meta a []])%list /\
  Rooted (fst (AddMetaNode loc meta a)) = Rooted (fst loc) /\
  Meta (fst (AddMetaNode loc meta a)) = Meta (fst loc) /\
  Value (fst (AddMetaNode loc meta a)) = Value (fst loc) /\
  FindLastNode (fst (AddMetaNode loc meta a)) = Some (mkNode true meta a []).
Proof.
  destruct loc as [[r m v ns] c]. simpl.
  repeat split. unfold FindLastNode. simpl. now rewrite rev_app_distr.
Qed.

(** [AddBranch] is [AddMetaBranch] with nil metadata; [AddMetaBranch] returns
    a fresh node with a set [Root], sitting last among its owner's [Nodes],
    and that owner is exactly the receiver after [AddMetaNode] with the same
    arguments. *)
Theorem AddMetaBranch_last_child (loc : Node * list Frame) (meta a : val) :
  AddBranch loc a = AddMetaBranch loc VNil a /\
  exists fr,
    snd (AddMetaBranch loc meta a) = fr :: snd loc /\
    fst (AddMetaBranch loc meta a) = mkNode true meta a [] /\
    isLast fr = true /\
    parent_of fr (fst (AddMetaBranch loc meta a)) = fst (AddMetaNode loc meta a).
Proof.
  destruct loc as [[r m v ns] c]. simpl. split; [reflexivity|].
  eexists. split; [reflexivity|]. split; [reflexivity|]. split; [reflexivity|].
  unfold parent_of. simpl. now rewrite rev_involutive.
Qed.





(** A fresh tree from [NewWithRoot(root)] renders as the single line
    [fmt.Sprint(root)] and a newline (["."] for [New()]). *)
Theorem NewWithRoot_renders (cfg : Config) (root : val) :
  String_ cfg (fst (NewWithRoot root)) (snd (NewWithRoot root)) = Some (fmt_v root ++ nl) /\
  String_ cfg (fst New) (snd New) = Some ("." ++ nl).
Proof.
  unfold String_, Bytes, WriteTo, Writer, New, NewWithRoot. simpl.
  rewrite !append_nil_r, !string_of_list_byte_of_string. split; reflexivity.
Qed.

(** ** When rendering panics *)

Lemma padding_loop_none (cfg : Config) (c : list Frame) :
  forall (node : Node) (k : nat) (suf : list string),
  padding_loop cfg (Z.of_nat k - 1) node c (repeat "" k ++ suf)%list = None <->
  k < up_len node c.
Proof.
  induction c as [|fr c IH]; intros node k suf.
  - simpl. destruct (Rooted node); split; (discriminate || lia).
  - simpl. destruct (Rooted node); [|split; (discriminate || lia)].
    destruct k as [|k].
    + simpl. split; [lia | reflexivity].
    + rewrite length_app, repeat_length.
      replace ((0 <=? Z.of_nat (S k) - 1)%Z && (Z.of_nat (S k) - 1 <? Z.of_nat (S k + List.length suf))%Z)
        with true by (symmetry; apply andb_true_iff; split; [apply Z.leb_le | apply Z.ltb_lt]; lia).
      replace (Z.to_nat (Z.of_nat (S k) - 1)) with k by lia.
      rewrite set_nth_repeat.
      replace (Z.of_nat (S k) - 1 - 1)%Z with (Z.of_nat k - 1)%Z by lia.
      rewrite IH. lia.
Qed.

Lemma padding_none_iff (cfg : Config) (level : nat) (node : Node) (c : list Frame) :
  padding cfg level node c = None <-> S level < up_len node c.
Proof.
  unfold padding.
  replace (Z.of_nat level) with (Z.of_nat (S level) - 1)%Z by lia.
  rewrite <- (app_nil_r (repeat "" (S level))), <- (padding_loop_none cfg c node (S level) []).
  destruct (padding_loop _ _ _ _ _); split; (discriminate || reflexivity).
Qed.














Lemma fst_bind_none {A B : Type} (m : M A) (f : A -> M B) :
  fst m = None -> fst (bind m f) = None.
Proof. destruct m as [[a|] o]; simpl; [discriminate | reflexivity]. Qed.

Lemma fst_bind_some {A B : Type} (m : M A) (f : A -> M B) (a : A) (o : string) :
  m = (Some a, o) -> fst (bind m f) = fst (f a).
Proof. intros ->. simpl. now destruct (f a). Qed.

(** Rendering a node that still has a parent panics as soon as its first
    child has a set [Root] and a value of several lines: that child is
    printed at level 0 while two [Root] pointers lie above it, so [padding]
    indexes [links[-1]] (if the start node's own multi-line value has not
    already panicked). *)
Theorem Writer_subnode_multiline_child_panics (cfg : Config) (m v : val) (k : Node)
  (ks : list Node) (fr : Frame) (c : list Frame) :
  Rooted k = true ->
  2 <= List.length (split_nl (fmt_v (Value k))) ->
  fst (Writer cfg (mkNode true m v (k :: ks)) (fr :: c)) = None.
Proof.
  intros Hk Hlines.
  assert (Hchild : forall E edge left,
    fst (printValues cfg 0 E edge k (mkFrame true m v left ks :: fr :: c)) = None).
  { intros E edge left. unfold printValues. simpl printLevels.
    rewrite bind_ret_l. apply fst_bind_none. unfold renderValue.
    replace (List.length (split_nl (fmt_v (Value k))) <? 2)%nat with false
      by (symmetry; apply Nat.ltb_ge; exact Hlines).
    replace (padding cfg 0 k (mkFrame true m v left ks :: fr :: c)) with (@None string).
    - reflexivity.
    - symmetry. apply padding_none_iff. simpl. rewrite Hk. simpl. lia. }
  unfold Writer. cbn [Rooted Nodes List.length Nat.eqb].
  destruct (printValues cfg 0 [] (EdgeTypeMid cfg) (mkNode true m v (k :: ks)) (fr :: c))
    as [[[]|] o] eqn:Hself.
  - erewrite fst_bind_some by reflexivity.
    simpl (0 <? _)%nat. cbv iota. simpl printNodes.
    apply fst_bind_none. apply Hchild.
  - apply fst_bind_none. reflexivity.
Qed.

Lemma Writer_subnode_multiline_child_panics_witness :
  Rooted node_xy = true /\
  2 <= List.length (split_nl (fmt_v (Value node_xy))) /\
  fst (Writer default_config (mkNode true VNil (VStr "C") [node_xy]) (tl loc_xy)) = None /\
  fst (Writer default_config (mkNode true VNil (VStr ("p" ++ nl ++ "q")) [node_xy])
         (tl loc_xy)) = None.
Proof.
  split; [reflexivity|]. split; [simpl; lia|]. split.
  - apply (Writer_subnode_multiline_child_panics default_config VNil (VStr "C") node_xy []
             (mkFrame true VNil (VStr "A") [node_B] [])
             [mkFrame false VNil (VStr ".") [] [leaf (VStr "D")]]).
    + reflexivity.
    + simpl. lia.
  - apply (Writer_subnode_multiline_child_panics default_config VNil
             (VStr ("p" ++ nl ++ "q")) node_xy []
             (mkFrame true VNil (VStr "A") [node_B] [])
             [mkFrame false VNil (VStr ".") [] [leaf (VStr "D")]]).
    + reflexivity.
    + simpl. lia.
Defined.

(** ** Struct tags *)

Lemma split_on_nonempty (sep : ascii) (s : string) : split_on sep s <> [].
Proof.
  destruct s as [|ch s']; simpl; [discriminate|].
  destruct (Ascii.eqb ch sep); [discriminate|].
  destruct (split_on sep s'); discriminate.
Qed.

Lemma split_on_free (sep : ascii) (x : string) :
  has_char sep x = false -> split_on sep x = [x].
Proof.
  induction x as [|ch x IH]; simpl; [reflexivity|].
  intros H. apply orb_false_iff in H as [H1 H2].
  rewrite H1, (IH H2). reflexivity.
Qed.

Lemma split_on_app (sep : ascii) (x rest : string) :
  has_char sep x = false ->
  split_on sep (x ++ String sep rest) = x :: split_on sep rest.
Proof.
  induction x as [|ch x IH]; simpl.
  - intros _. now rewrite Ascii.eqb_refl.
  - intros H. apply orb_false_iff in H as [H1 H2].
    rewrite H1, (IH H2). reflexivity.
Qed.

Lemma split_on_fields_free (sep : ascii) (s : string) :
  Forall (fun x => has_char sep x = false) (split_on sep s).
Proof.
  induction s as [|ch s IH]; simpl.
  - repeat constructor.
  - destruct (Ascii.eqb ch sep) eqn:E.
    + constructor; [reflexivity | exact IH].
    + destruct (split_on sep s) as [|l ls] eqn:Es.
      * constructor; [simpl; now rewrite E | constructor].
      * apply Forall_cons_iff in IH as [Hl Hls].
        constructor; [simpl; now rewrite E, Hl | exact Hls].
Qed.

Lemma concat_split_on (sep : ascii) (s : string) :
  String.concat (String sep "") (split_on sep s) = s.
Proof.
  induction s as [|ch s IH]; simpl; [reflexivity|].
  destruct (Ascii.eqb ch sep) eqn:E.
  - apply Ascii.eqb_eq in E. subst ch.
    destruct (split_on sep s) as [|l ls] eqn:Es; [now apply split_on_nonempty in Es|].
    simpl. f_equal. exact IH.
  - destruct (split_on sep s) as [|l ls] eqn:Es; [now apply split_on_nonempty in Es|].
    destruct ls as [|l' ls']; simpl in *; now rewrite IH.
Qed.

Lemma split_on_concat (sep : ascii) (xs : list string) :
  xs <> [] -> Forall (fun x => has_char sep x = false) xs ->
  split_on sep (String.concat (String sep "") xs) = xs.
Proof.
  induction xs as [|x xs IH]; [congruence|].
  intros _ Hf. apply Forall_cons_iff in Hf as [Hx Hxs].
  destruct xs as [|y ys].
  - simpl. now apply split_on_free.
  - change (String.concat (String sep "") (x :: y :: ys))
      with (x ++ String sep (String.concat (String sep "") (y :: ys))).
    rewrite (split_on_app sep x _ Hx), IH; [reflexivity | discriminate | exact Hxs].
Qed.

Lemma filter_all {A : Type} (f : A -> bool) (l : list A) :
  forallb f l = true -> filter f l = l.
Proof.
  induction l as [|a l IH]; simpl; [reflexivity|].
  intros H. apply andb_true_iff in H as [H1 H2]. rewrite H1, (IH H2). reflexivity.
Qed.

Lemma Forall_filter_keep {A : Type} (P : A -> Prop) (f : A -> bool) (l : list A) :
  Forall P l -> Forall P (filter f l).
Proof.
  rewrite !Forall_forall. intros H x Hx. apply filter_In in Hx as [Hx _]. now apply H.
Qed.

(** [tagSpec] splits at the first comma: a tag without a comma is the name
    with [omit = false]; after ["name,"] only the next comma-separated field
    is looked at, and [omit] holds exactly when it is ["omitempty"]. *)
Theorem tagSpec_name_options (name : string) :
  has_char ","%char name = false ->
  tagSpec name = (name, false) /\
  forall rest, tagSpec (name ++ "," ++ rest) =
               (name, String.eqb (hd "" (split_on ","%char rest)) "omitempty").
Proof.
  intros Hn. split.
  - unfold tagSpec. now rewrite (split_on_free _ _ Hn).
  - intros rest. unfold tagSpec.
    change ("," ++ rest) with (String ","%char rest).
    rewrite (split_on_app _ _ _ Hn).
    destruct (split_on ","%char rest) as [|p1 ps] eqn:E;
      [now apply split_on_nonempty in E|].
    simpl. destruct (String.eqb p1 "omitempty"); reflexivity.
Qed.

Lemma tagSpec_name_options_witness :
  has_char ","%char "json" = false /\
  tagSpec "json" = ("json", false) /\
  tagSpec ("json" ++ "," ++ "omitempty,string") = ("json", true).
Proof.
  destruct (tagSpec_name_options "json" eq_refl) as [H1 H2].
  split; [reflexivity|]. split; [exact H1|].
  rewrite H2. reflexivity.
Defined.

Lemma filterTags_plain (tag : string) :
  forallb (fun t => negb (String.prefix "tree:" t)) (split_on " "%char tag) = true ->
  filterTags tag = tag.
Proof.
  intros H. unfold filterTags. rewrite (filter_all _ _ H).
  exact (concat_split_on " "%char tag).
Qed.

(** [filterTags] leaves a tag without ["tree:"] fields unchanged, byte for
    byte, including empty fields from repeated spaces. *)
Theorem filterTags_keeps_plain (tag : string) :
  forallb (fun t => negb (String.prefix "tree:" t)) (split_on " "%char tag) = true ->
  filterTags tag = tag.
Proof. exact (filterTags_plain tag). Qed.

Lemma filterTags_keeps_plain_witness :
  forallb (fun t => negb (String.prefix "tree:" t)) (split_on " "%char "json:x  yaml:y") = true /\
  filterTags "json:x  yaml:y" = "json:x  yaml:y".
Proof. split; [reflexivity | apply filterTags_keeps_plain; reflexivity]. Defined.

(** The fields of [filterTags tag] are exactly the fields of [tag] without
    the prefix ["tree:"], in order (one empty field when none is left); no
    field of the result has that prefix, so filtering again changes
    nothing. *)
Theorem filterTags_fields (tag : string) :
  let kept := filter (fun t => negb (String.prefix "tree:" t)) (split_on " "%char tag) in
  split_on " "%char (filterTags tag) = (match kept with [] => [""] | _ => kept end) /\
  Forall (fun t => String.prefix "tree:" t = false) (split_on " "%char (filterTags tag)) /\
  filterTags (filterTags tag) = filterTags tag.
Proof.
  intros kept.
  assert (Hfree : Forall (fun x => has_char " "%char x = false) kept)
    by apply Forall_filter_keep, split_on_fields_free.
  assert (Hno : Forall (fun t => String.prefix "tree:" t = false) kept).
  { unfold kept. apply Forall_forall. intros x Hx. apply filter_In in Hx as [_ Hx].
    now apply negb_true_iff in Hx. }
  assert (Hsplit : split_on " "%char (filterTags tag) = match kept with [] => [""] | _ => kept end).
  { unfold filterTags. fold kept.
    destruct kept as [|k ks] eqn:Ek; [reflexivity|].
    apply split_on_concat; [discriminate | exact Hfree]. }
  assert (Hno' : Forall (fun t => String.prefix "tree:" t = false) (split_on " "%char (filterTags tag))).
  { rewrite Hsplit. destruct kept; [repeat constructor | exact Hno]. }
  split; [exact Hsplit|]. split; [exact Hno'|].
  apply filterTags_plain.
  apply forallb_forall. intros x Hx. apply negb_true_iff.
  rewrite Forall_forall in Hno'. now apply Hno'.
Qed.
